(** * Tiny-URL: a verification development for the URL shortener

    The development embeds [src/utils.ts] (base-62 codec, URL assembly,
    the in-memory store) and [src/index.ts] (the hash pipeline of
    [createShortUrl], [extractShortCode], [decodeUrl]) and proves the
    properties the specification states about them.

    Modelling conventions.
    - A JavaScript string is the list of its UTF-16 code units
      ([jsstring := list Z]); [charCodeAt] and indexing read one unit.
    - A JavaScript number is an IEEE double.  Every number that the
      program manipulates is an integer, and doubles are exact on
      integers of magnitude below [2^53]; numbers are therefore modelled
      as [Z].  [hash_magnitude] bounds the hash accumulators, so the model
      is exact for inputs of up to [2^20] code units, and the codec is
      exact for identifiers below [2^53].
    - [urlStorage] is a process-wide [Map<number, string>]; it is threaded
      explicitly as a [gmap Z jsstring].
    - [throw] / [try ... catch] are modelled by the [completion] type.
    - An optional property of an options object is a [property]: absent,
      set to [undefined], or set to a value.
    - Where the arithmetic of doubles could round (codes whose value
      reaches [2^53], hash loops over more than [2^20] code units), the
      theorems carry the bound under which the integer model is exact.
    - A custom hash function returns an integer; [createShortUrl] takes
      it as a function of the URL and [createShortUrl_stateful] as a
      function with state of its own. *)

From Stdlib Require Import ZArith List Lia String Ascii.
From stdpp Require Import base option list gmap.
From Equations Require Import Equations.

Import ListNotations.
Local Open Scope Z_scope.

(** ** JavaScript strings *)

Module JS.

(** UTF-16 code units; a well-formed string only holds 16-bit units. *)
Definition jsstring := list Z.

Definition is_code_unit (c : Z) : Prop := 0 <= c <= 65535.

Definition well_formed (s : jsstring) : Prop := Forall is_code_unit s.

(** A source literal, given as a Rocq string. *)
Definition lit (s : string) : jsstring :=
  map (fun a => Z.of_N (N_of_ascii a)) (list_ascii_of_string s).

(** [s.indexOf(c)] for a one-unit needle [c]: the first position of [c]
    in [s], or [-1]. *)
Fixpoint indexOf_from (s : jsstring) (c : Z) (pos : Z) : Z :=
  match s with
  | [] => -1
  | x :: rest => if x =? c then pos else indexOf_from rest c (pos + 1)
  end.

Definition indexOf (s : jsstring) (c : Z) : Z := indexOf_from s c 0.

(** [s[i]] used as a string operand: the one-unit string at [i], and the
    text of [undefined] when [i] is not an index of [s]. *)
Definition char_at (s : jsstring) (i : Z) : jsstring :=
  if i <? 0 then lit "undefined"
  else match nth_error s (Z.to_nat i) with
       | Some c => [c]
       | None => lit "undefined"
       end.

(** [x || y] on strings: the empty string is falsy. *)
Definition or_else (x y : jsstring) : jsstring :=
  match x with
  | [] => y
  | _ :: _ => x
  end.

(** A template hole [${v}] for an optional string. *)
Definition template (v : option jsstring) : jsstring :=
  match v with
  | Some s => s
  | None => lit "undefined"
  end.

(** Exceptions: the only value the program throws is an [Error] with a
    message; a property access on [undefined] raises a [TypeError]. *)
Inductive js_error : Type :=
| Error (message : jsstring)
| TypeError.

Inductive completion (A : Type) : Type :=
| Normal (v : A)
| Throw (e : js_error).

Arguments Normal {A} v.
Arguments Throw {A} e.

(** Sequencing: an abrupt completion skips the rest of the block. *)
#[global] Instance completion_ret : MRet completion := fun A v => Normal v.

#[global] Instance completion_bind : MBind completion := fun A B k c =>
  match c with
  | Normal v => k v
  | Throw e => Throw e
  end.

(** [try { body } catch (error) { handler }]. *)
Definition try_catch {A} (body : completion A) (handler : js_error -> completion A)
  : completion A :=
  match body with
  | Normal v => Normal v
  | Throw e => handler e
  end.

(** [ToInt32] of an integral number, and the [<<] operator. *)
Definition ToInt32 (x : Z) : Z :=
  let m := x mod 2 ^ 32 in
  if m >=? 2 ^ 31 then m - 2 ^ 32 else m.

Definition shl (x k : Z) : Z :=
  ToInt32 (Z.shiftl (ToInt32 x) (Z.land k 31)).

Definition in_int32 (x : Z) : Prop := - 2 ^ 31 <= x <= 2 ^ 31 - 1.

End JS.

Import JS.

(** ** src/utils.ts: the base-62 codec *)

Definition CHARACTERS : jsstring :=
  lit "ABCDEFGHIJKLMNOPQRSTUVWXYZabcdefghijklmnopqrstuvwxyz0123456789".

Definition BASE : Z := Z.of_nat (length CHARACTERS).

(** A bound on the number of iterations of the loop of [encodeId]: the
    binary length of [num]. *)
Definition binary_length (num : Z) : nat := Z.to_nat (Z.log2 (2 * num + 1)).

(** The [while (num > 0)] loop of [encodeId]; [num % BASE] is the
    truncating remainder and [Math.floor(num / BASE)] the floor quotient.
    The quotient of doubles is rounded before [Math.floor]; for
    [num < 2^53] the rounding error is below [1/62] and the floor is the
    integer quotient taken here. *)
Equations? encode_loop (num : Z) (shortUrl : jsstring) : jsstring
  by wf (binary_length num) lt :=
  encode_loop num shortUrl with Z_gt_dec num 0 := {
    | left _ =>
        encode_loop (num / BASE)
                    (char_at CHARACTERS (Z.rem num BASE) ++ shortUrl)
    | right _ => shortUrl }.
Proof.
  unfold binary_length.
  assert (Hq : 2 * (num / BASE) + 1 <= num).
  { change BASE with 62. pose proof (Z.div_pos num 62). 
    assert (num / 62 <= num / 2) by (apply Z.div_le_compat_l; lia).
    assert (2 * (num / 2) <= num) by (apply Z.mul_div_le; lia).
    destruct (Z.eq_dec num 1) as [-> | ?]; [reflexivity | ].
    assert (num / 62 < num / 2 \/ num / 62 = 0).
    { destruct (Z_lt_dec num 62).
      - right. apply Z.div_small. lia.
      - left. assert (62 * (num / 62) <= num) by (apply Z.mul_div_le; lia).
        assert (num < 2 * (num / 2) + 2).
        { pose proof (Z.mod_pos_bound num 2). pose proof (Z.div_mod num 2). lia. }
        lia. }
    lia. }
  apply Z.log2_le_mono in Hq.
  rewrite (Z.log2_succ_double num) by lia.
  pose proof (Z.log2_nonneg (2 * (num / BASE) + 1)).
  lia.
Qed.

Definition encodeId (id : Z) : jsstring :=
  let shortUrl := encode_loop id [] in
  or_else shortUrl (char_at CHARACTERS 0).

Definition invalid_character (c : Z) : js_error :=
  Error (lit "Invalid character in short URL: " ++ [c]).

(** The [for] loop of [decodeShortUrl], started with accumulator [id].
    The accumulator never decreases, so the integer arithmetic taken here
    is that of doubles as long as the result is below [2^53]. *)
Fixpoint decode_loop (shortCode : jsstring) (id : Z) : completion Z :=
  match shortCode with
  | [] => Normal id
  | char :: rest =>
      let charIndex := indexOf CHARACTERS char in
      if charIndex =? -1 then Throw (invalid_character char)
      else decode_loop rest (id * BASE + charIndex)
  end.

Definition decodeShortUrl (shortCode : jsstring) : completion Z :=
  decode_loop shortCode 0.

(** ** src/utils.ts: configuration and URL assembly *)

(** An optional property of an object literal: absent, or present with
    a value; [Present None] is a property set to [undefined]. *)
Inductive property (A : Type) : Type :=
| Absent
| Present (v : option A).

Arguments Absent {A}.
Arguments Present {A} v.

(** [o.p]: [undefined] when the property is absent or set to [undefined]. *)
Definition get {A} (p : property A) : option A :=
  match p with
  | Present v => v
  | Absent => None
  end.

(** [ShortUrlOptions]: [domain] is required, every other property is
    optional. *)
Record ShortUrlOptions : Type := {
  domain : jsstring;
  includeRedirectPath : property bool;
  redirectPathSegment : property jsstring;
  includeProtocol : property bool;
  protocol : property jsstring;
  pathSeparator : property jsstring
}.

Definition DEFAULT_SHORT_URL_OPTIONS : ShortUrlOptions := {|
  domain := lit "short.url";
  includeRedirectPath := Present (Some true);
  redirectPathSegment := Present (Some (lit "r"));
  includeProtocol := Present (Some false);
  protocol := Present (Some (lit "https"));
  pathSeparator := Present (Some (lit "/"))
|}.

(** One property of an object spread [{ ...under, ...over }]: a property
    present in [over] wins, also when its value is [undefined]. *)
Definition spread_field {A} (under over : property A) : property A :=
  match over with
  | Present v => Present v
  | Absent => under
  end.

(** [{ ...under, ...over }] where [over] is a [ShortUrlOptions]. *)
Definition spread (under over : ShortUrlOptions) : ShortUrlOptions := {|
  domain := domain over;
  includeRedirectPath :=
    spread_field (includeRedirectPath under) (includeRedirectPath over);
  redirectPathSegment :=
    spread_field (redirectPathSegment under) (redirectPathSegment over);
  includeProtocol := spread_field (includeProtocol under) (includeProtocol over);
  protocol := spread_field (protocol under) (protocol over);
  pathSeparator := spread_field (pathSeparator under) (pathSeparator over)
|}.

(** [{ ...under, domain: d }]. *)
Definition with_domain (under : ShortUrlOptions) (d : jsstring) : ShortUrlOptions := {|
  domain := d;
  includeRedirectPath := includeRedirectPath under;
  redirectPathSegment := redirectPathSegment under;
  includeProtocol := includeProtocol under;
  protocol := protocol under;
  pathSeparator := pathSeparator under
|}.

(** Truthiness of a boolean and of a string that may be [undefined]. *)
Definition truthy_bool (b : option bool) : bool :=
  match b with
  | Some true => true
  | _ => false
  end.

Definition truthy_string (s : option jsstring) : bool :=
  match s with
  | Some (_ :: _) => true
  | _ => false
  end.

(** The second parameter of [buildShortUrl]: [options?: string | ShortUrlOptions]. *)
Inductive BuildOptions : Type :=
| NoOptions
| DomainString (d : jsstring)
| OptionsObject (o : ShortUrlOptions).

Definition buildShortUrl (id : Z) (options : BuildOptions) : jsstring :=
  let opts :=
    match options with
    | DomainString d => with_domain DEFAULT_SHORT_URL_OPTIONS d
    | OptionsObject o => spread DEFAULT_SHORT_URL_OPTIONS o
    | NoOptions => DEFAULT_SHORT_URL_OPTIONS
    end in
  let shortCode := encodeId id in
  let url := [] in
  let url :=
    if truthy_bool (get (includeProtocol opts))
       && truthy_string (get (protocol opts))
    then url ++ (template (get (protocol opts)) ++ lit "://")
    else url in
  let url := url ++ domain opts in
  let url :=
    if truthy_bool (get (includeRedirectPath opts))
       && truthy_string (get (redirectPathSegment opts))
    then url ++ (template (get (pathSeparator opts))
                 ++ template (get (redirectPathSegment opts)))
    else url in
  let url := url ++ (template (get (pathSeparator opts)) ++ shortCode) in
  url.

(** ** src/utils.ts: the store *)

Definition storeUrlMapping (id : Z) (originalUrl : jsstring)
    (urlStorage : gmap Z jsstring) : gmap Z jsstring :=
  <[id := originalUrl]> urlStorage.

Definition getOriginalUrl (id : Z) (urlStorage : gmap Z jsstring)
  : option jsstring :=
  urlStorage !! id.

(** ** src/index.ts: hashing and short-URL creation *)

Inductive HashAlgorithm : Type := djb2 | sdbm | custom.

(** [CreateShortUrlOptions extends ShortUrlOptions].  For [hashAlgorithm]
    and [customHashFn], [None] stands for a property that is absent or set
    to [undefined]: both select the same branch of [createShortUrl].  The
    custom hash function is here a function of the URL that returns an
    integer; [createShortUrl_stateful] below covers a function that keeps
    state between calls. *)
Record CreateShortUrlOptions : Type := {
  url_options : ShortUrlOptions;
  hashAlgorithm : option HashAlgorithm;
  customHashFn : option (jsstring -> Z)
}.

Definition DEFAULT_CREATE_OPTIONS : CreateShortUrlOptions := {|
  url_options := DEFAULT_SHORT_URL_OPTIONS;
  hashAlgorithm := Some djb2;
  customHashFn := None
|}.

(** The third parameter of [createShortUrl]:
    [Partial<Omit<CreateShortUrlOptions, "domain">>]. *)
Record CreateOverrides : Type := {
  with_includeRedirectPath : property bool;
  with_redirectPathSegment : property jsstring;
  with_includeProtocol : property bool;
  with_protocol : property jsstring;
  with_pathSeparator : property jsstring;
  with_hashAlgorithm : option HashAlgorithm;
  with_customHashFn : option (jsstring -> Z)
}.

Definition no_overrides : CreateOverrides := {|
  with_includeRedirectPath := Absent;
  with_redirectPathSegment := Absent;
  with_includeProtocol := Absent;
  with_protocol := Absent;
  with_pathSeparator := Absent;
  with_hashAlgorithm := None;
  with_customHashFn := None
|}.

(** The same spread for [hashAlgorithm] and [customHashFn]. *)
Definition spread_option {A} (under over : option A) : option A :=
  match over with
  | Some v => Some v
  | None => under
  end.

(** [{ ...DEFAULT_CREATE_OPTIONS, domain, ...options }]; spreading
    [undefined] adds nothing. *)
Definition merge_create_options (d : jsstring) (options : option CreateOverrides)
  : CreateShortUrlOptions :=
  let o := default no_overrides options in
  let under := url_options DEFAULT_CREATE_OPTIONS in
  {| url_options := {|
       domain := d;
       includeRedirectPath :=
         spread_field (includeRedirectPath under) (with_includeRedirectPath o);
       redirectPathSegment :=
         spread_field (redirectPathSegment under) (with_redirectPathSegment o);
       includeProtocol :=
         spread_field (includeProtocol under) (with_includeProtocol o);
       protocol := spread_field (protocol under) (with_protocol o);
       pathSeparator := spread_field (pathSeparator under) (with_pathSeparator o)
     |};
     hashAlgorithm :=
       spread_option (hashAlgorithm DEFAULT_CREATE_OPTIONS) (with_hashAlgorithm o);
     customHashFn :=
       spread_option (customHashFn DEFAULT_CREATE_OPTIONS) (with_customHashFn o)
  |}.

(** One iteration of each hash loop: [hash] is the accumulator, [char]
    the result of [charCodeAt(i)].  The additions are those of doubles as
    long as the sums are safe integers, which [hash_magnitude] and
    [djb2_step_exact] show for inputs of up to [2^20] code units. *)
Definition djb2_step (hash char : Z) : Z := shl hash 5 + hash + char.

Definition sdbm_step (hash char : Z) : Z :=
  char + shl hash 6 + shl hash 16 - hash.

(** [for (let i = 0; i < longUrl.length; i++) hash = step(hash, longUrl.charCodeAt(i))]. *)
Fixpoint hash_loop (step : Z -> Z -> Z) (longUrl : jsstring) (hash : Z) : Z :=
  match longUrl with
  | [] => hash
  | char :: rest => hash_loop step rest (step hash char)
  end.

Definition djb2_hash (longUrl : jsstring) : Z := hash_loop djb2_step longUrl 5381.

Definition sdbm_hash (longUrl : jsstring) : Z := hash_loop sdbm_step longUrl 0.

(** The three-way branch of [createShortUrl] that computes [hash]. *)
Definition compute_hash (opts : CreateShortUrlOptions) (longUrl : jsstring) : Z :=
  match hashAlgorithm opts, customHashFn opts with
  | Some custom, Some fn => fn longUrl
  | Some sdbm, _ => sdbm_hash longUrl
  | _, _ => djb2_hash longUrl
  end.

(** [createShortUrl] returns the short URL and leaves the updated store. *)
Definition createShortUrl (longUrl d : jsstring) (options : option CreateOverrides)
    (urlStorage : gmap Z jsstring) : jsstring * gmap Z jsstring :=
  let opts := merge_create_options d options in
  let hash := compute_hash opts longUrl in
  let positiveHash := Z.abs hash in
  let urlStorage := storeUrlMapping positiveHash longUrl urlStorage in
  (buildShortUrl positiveHash (OptionsObject (url_options opts)), urlStorage).

(** [createShortUrl] when [options.customHashFn] is a function that keeps
    state of its own between calls: [call url state] is the number it
    returns and its next state.  It stands for the [customHashFn] property
    of [options]; the rest is [createShortUrl]. *)
Definition createShortUrl_stateful {State : Type}
    (call : jsstring -> State -> Z * State)
    (longUrl d : jsstring) (options : option CreateOverrides)
    (state : State) (urlStorage : gmap Z jsstring)
  : jsstring * State * gmap Z jsstring :=
  let opts := merge_create_options d options in
  let '(hash, state) :=
    match hashAlgorithm opts with
    | Some custom => call longUrl state
    | Some sdbm => (sdbm_hash longUrl, state)
    | _ => (djb2_hash longUrl, state)
    end in
  let positiveHash := Z.abs hash in
  let urlStorage := storeUrlMapping positiveHash longUrl urlStorage in
  (buildShortUrl positiveHash (OptionsObject (url_options opts)), state, urlStorage).

(** ** src/index.ts: decoding a short URL *)

(** [p] removed from the front of [s], when [s] starts with [p]. *)
Fixpoint strip_prefix (p s : jsstring) : option jsstring :=
  match p, s with
  | [], _ => Some s
  | x :: p', y :: s' => if x =? y then strip_prefix p' s' else None
  | _ :: _, [] => None
  end.

(** [shortUrl.replace(/^https?:\/\//, "")]. *)
Definition remove_protocol (shortUrl : jsstring) : jsstring :=
  match strip_prefix (lit "https://") shortUrl with
  | Some rest => rest
  | None =>
      match strip_prefix (lit "http://") shortUrl with
      | Some rest => rest
      | None => shortUrl
      end
  end.

(** [s.split(sep)] for a one-unit separator. *)
Fixpoint split (sep : Z) (s : jsstring) : list jsstring :=
  match s with
  | [] => [[]]
  | c :: rest =>
      if c =? sep then [] :: split sep rest
      else match split sep rest with
           | part :: parts => (c :: part) :: parts
           | [] => [[c]]
           end
  end.

Definition slash : Z := 47.

(** [parts[parts.length - 1]]; [None] is [undefined]. *)
Definition extractShortCode (shortUrl : jsstring) : option jsstring :=
  let urlWithoutProtocol := remove_protocol shortUrl in
  let parts := split slash urlWithoutProtocol in
  last parts.

Definition decodeUrl (shortUrl : jsstring) (urlStorage : gmap Z jsstring)
  : completion (option jsstring) :=
  try_catch
    (let shortCode := extractShortCode shortUrl in
     id ← match shortCode with
          | Some code => decodeShortUrl code
          | None => Throw TypeError
          end;
     Normal (getOriginalUrl id urlStorage))
    (fun error => Normal None).

(** * Definitions used to state the properties *)

(** The URL of the specification's idempotence example. *)
Definition example_url : jsstring := lit "https://example.com/very/long/path".

(** The identifier of a long URL under given options: the normalized
    hash, [positiveHash] in [createShortUrl]. *)
Definition identifier (opts : CreateShortUrlOptions) (longUrl : jsstring) : Z :=
  Z.abs (compute_hash opts longUrl).

(** The 62 characters are distinct: position [k] holds the character whose
    index is [k]. *)
Definition alphabet_positions_ok : bool :=
  forallb
    (fun k => match nth_error CHARACTERS k with
              | Some c => indexOf CHARACTERS c =? Z.of_nat k
              | None => false
              end)
    (seq 0 62).

(** The digit value of a character: its 0-indexed position in the alphabet. *)
Definition digit_value (c : Z) : Z := indexOf CHARACTERS c.

Definition in_alphabet (c : Z) : Prop := c ∈ CHARACTERS.

(** DJB2 as the specification words it: multiply by 33, add the code, and
    wrap to a signed 32-bit integer after every step. *)
Definition djb2_wrapped_step (hash code : Z) : Z := ToInt32 (hash * 33 + code).

Definition djb2_wrapped (input : jsstring) : Z :=
  hash_loop djb2_wrapped_step input 5381.

(** The configuration bundle: the documented defaults merged with the
    user's overrides. *)
Record Configuration : Type := {
  cfg_domain : jsstring;
  cfg_includeProtocol : bool;
  cfg_protocol : jsstring;
  cfg_includeRedirectPath : bool;
  cfg_redirectSegment : jsstring;
  cfg_separator : jsstring
}.

(** What a property reads once the default [dflt] is merged with the
    user's property: the default when the property is absent, the user's
    value otherwise, [undefined] included. *)
Definition merged {A} (dflt : A) (p : property A) : option A :=
  get (spread_field (Present (Some dflt)) p).

(** In the bundle an [undefined] flag counts as [false], an [undefined]
    protocol or redirect segment as the empty string, and an [undefined]
    separator is the text a template renders for it. *)
Definition configuration (o : ShortUrlOptions) : Configuration := {|
  cfg_domain := domain o;
  cfg_includeProtocol := truthy_bool (merged false (includeProtocol o));
  cfg_protocol := default [] (merged (lit "https") (protocol o));
  cfg_includeRedirectPath := truthy_bool (merged true (includeRedirectPath o));
  cfg_redirectSegment := default [] (merged (lit "r") (redirectPathSegment o));
  cfg_separator := template (merged (lit "/") (pathSeparator o))
|}.

(** The concatenation as the specification words it. *)
Definition concatenation_spec (c : Configuration) (shortCode : jsstring) : jsstring :=
  (if cfg_includeProtocol c then cfg_protocol c ++ lit "://" else [])
  ++ cfg_domain c
  ++ (if cfg_includeRedirectPath c
      then cfg_separator c ++ cfg_redirectSegment c else [])
  ++ cfg_separator c ++ shortCode.

Definition nonempty (s : jsstring) : bool :=
  match s with
  | [] => false
  | _ :: _ => true
  end.

(** The concatenation with the guards of the source: an empty protocol or
    an empty redirect segment is left out together with its punctuation. *)
Definition concatenation (c : Configuration) (shortCode : jsstring) : jsstring :=
  (if cfg_includeProtocol c && nonempty (cfg_protocol c)
   then cfg_protocol c ++ lit "://" else [])
  ++ cfg_domain c
  ++ (if cfg_includeRedirectPath c && nonempty (cfg_redirectSegment c)
      then cfg_separator c ++ cfg_redirectSegment c else [])
  ++ cfg_separator c ++ shortCode.

Definition empty_protocol_options : ShortUrlOptions := {|
  domain := lit "short.url";
  includeRedirectPath := Absent;
  redirectPathSegment := Absent;
  includeProtocol := Present (Some true);
  protocol := Present (Some []);
  pathSeparator := Absent
|}.

(** The value of a short code: its digit values accumulated left to
    right, most significant digit first. *)
Definition code_value (s : jsstring) : Z :=
  fold_left (fun id c => id * 62 + digit_value c) s 0.

(** A short code without its leading zero digits (leading ["A"]s). *)
Fixpoint strip_leading_zeros (s : jsstring) : jsstring :=
  match s with
  | [] => []
  | c :: rest => if digit_value c =? 0 then strip_leading_zeros rest else s
  end.

(** SDBM with a wrap to a signed 32-bit integer after every step:
    [65599 = 2^6 + 2^16 - 1]. *)
Definition sdbm_wrapped_step (hash code : Z) : Z := ToInt32 (hash * 65599 + code).

Definition sdbm_wrapped (input : jsstring) : Z :=
  hash_loop sdbm_wrapped_step input 0.

(** The path separator in force for a call of [createShortUrl]: the
    override when there is one, ["/"] otherwise. *)
Definition separator_of (options : option CreateOverrides) : jsstring :=
  match options with
  | Some o => template (merged (lit "/") (with_pathSeparator o))
  | None => lit "/"
  end.

(** Integers on which the arithmetic of doubles is exact. *)
Definition safe_integer (x : Z) : Prop := Z.abs x < 2 ^ 53.

(** The hash of [longUrl] is computed without rounding: a built-in loop
    runs over at most [2^20] code units (see [hash_magnitude]), a custom
    function returns a safe integer. *)
Definition exact_hash (opts : CreateShortUrlOptions) (longUrl : jsstring) : Prop :=
  match hashAlgorithm opts, customHashFn opts with
  | Some custom, Some fn => safe_integer (fn longUrl)
  | _, _ => well_formed longUrl /\ (length longUrl <= 2 ^ 20)%nat
  end.




(** Overrides that only set the path separator to ["-"], as in the README. *)
Definition dash_separator : CreateOverrides := {|
  with_includeRedirectPath := Absent;
  with_redirectPathSegment := Absent;
  with_includeProtocol := Absent;
  with_protocol := Absent;
  with_pathSeparator := Present (Some (lit "-"));
  with_hashAlgorithm := None;
  with_customHashFn := None
|}.

(** * Properties *)

(** ** The alphabet *)

Section Alphabet.

Lemma BASE_eq : BASE = 62.
Proof. reflexivity. Qed.

Lemma indexOf_from_absent (s : jsstring) (c pos : Z) :
  c ∉ s -> indexOf_from s c pos = -1.
Proof.
  revert pos. induction s as [| x rest IH]; intros pos Hc; simpl.
  - reflexivity.
  - rewrite not_elem_of_cons in Hc. destruct Hc as [Hne Hrest].
    destruct (Z.eqb_spec x c); [congruence | now apply IH].
Qed.

Lemma indexOf_from_present (s : jsstring) (c pos : Z) :
  c ∈ s ->
  pos <= indexOf_from s c pos < pos + Z.of_nat (length s)
  /\ nth_error s (Z.to_nat (indexOf_from s c pos - pos)) = Some c.
Proof.
  revert pos. induction s as [| x rest IH]; intros pos Hc.
  - inversion Hc.
  - simpl indexOf_from. destruct (Z.eqb_spec x c) as [-> | Hne].
    + rewrite Z.sub_diag. simpl. split; [lia | reflexivity].
    + apply elem_of_cons in Hc. destruct Hc as [-> | Hc]; [congruence |].
      destruct (IH (pos + 1) Hc) as [Hrange Hnth].
      split; [simpl length; lia |].
      replace (indexOf_from rest c (pos + 1) - pos)
        with (Z.succ (indexOf_from rest c (pos + 1) - (pos + 1))) by lia.
      rewrite Z2Nat.inj_succ by lia. exact Hnth.
Qed.

(** [indexOf] answers [-1] exactly on the characters absent from the string. *)
Lemma indexOf_absent_iff (s : jsstring) (c : Z) :
  indexOf s c = -1 <-> c ∉ s.
Proof.
  split.
  - intros Hidx Hin. destruct (indexOf_from_present s c 0 Hin) as [Hrange _].
    unfold indexOf in Hidx. lia.
  - apply indexOf_from_absent.
Qed.

(** The digit value of an alphabet character is its position. *)
Lemma indexOf_position (c : Z) :
  c ∈ CHARACTERS ->
  0 <= indexOf CHARACTERS c < BASE
  /\ char_at CHARACTERS (indexOf CHARACTERS c) = [c].
Proof.
  intros Hin. destruct (indexOf_from_present CHARACTERS c 0 Hin) as [Hrange Hnth].
  fold (indexOf CHARACTERS c) in Hrange, Hnth. rewrite Z.sub_0_r in Hnth.
  split; [exact Hrange |].
  unfold char_at. destruct (Z.ltb_spec (indexOf CHARACTERS c) 0); [lia |].
  now rewrite Hnth.
Qed.

Lemma char_at_digit (k : Z) :
  0 <= k < BASE ->
  exists c, char_at CHARACTERS k = [c] /\ indexOf CHARACTERS c = k.
Proof.
  intros Hk. rewrite BASE_eq in Hk.
  assert (Hall : alphabet_positions_ok = true) by (vm_compute; reflexivity).
  unfold alphabet_positions_ok in Hall. rewrite forallb_forall in Hall.
  specialize (Hall (Z.to_nat k)).
  assert (Hseq : In (Z.to_nat k) (seq 0 62)) by (apply in_seq; lia).
  specialize (Hall Hseq).
  unfold char_at. destruct (Z.ltb_spec k 0); [lia |].
  destruct (nth_error CHARACTERS (Z.to_nat k)) as [c |]; [| discriminate].
  exists c. split; [reflexivity |].
  apply Z.eqb_eq in Hall. lia.
Qed.

End Alphabet.

(** ** The codec *)

Section Codec.

(** The loop equation of [encodeId], as the source reads. *)
Lemma encode_loop_pos (num : Z) (shortUrl : jsstring) :
  0 < num ->
  encode_loop num shortUrl
  = encode_loop (num / BASE) (char_at CHARACTERS (Z.rem num BASE) ++ shortUrl).
Proof.
  intros Hnum. rewrite encode_loop_equation_1.
  destruct (Z_gt_dec num 0); [reflexivity | lia].
Qed.

Lemma encode_loop_nonpos (num : Z) (shortUrl : jsstring) :
  num <= 0 -> encode_loop num shortUrl = shortUrl.
Proof.
  intros Hnum. rewrite encode_loop_equation_1.
  destruct (Z_gt_dec num 0); [lia | reflexivity].
Qed.

(** Decoding what the loop produced in front of [shortUrl] resumes the
    decoding of [shortUrl] with accumulator [num]. *)
Lemma decode_encode_loop (num : Z) :
  0 <= num ->
  forall shortUrl,
    decode_loop (encode_loop num shortUrl) 0 = decode_loop shortUrl num.
Proof.
  intros Hnum. generalize Hnum.
  apply (Z_lt_induction (fun n => 0 <= n -> forall shortUrl,
    decode_loop (encode_loop n shortUrl) 0 = decode_loop shortUrl n));
    [| exact Hnum].
  clear num Hnum. intros num IH Hnum shortUrl.
  destruct (Z_gt_dec num 0) as [Hpos | Hzero].
  - rewrite encode_loop_pos by lia.
    assert (Hq : 0 <= num / BASE < num).
    { rewrite BASE_eq. split; [apply Z.div_pos; lia | apply Z.div_lt; lia]. }
    rewrite (IH (num / BASE) Hq) by lia.
    assert (Hr : 0 <= Z.rem num BASE < BASE).
    { rewrite BASE_eq. apply Z.rem_bound_pos; lia. }
    destruct (char_at_digit _ Hr) as [c [Hc Hidx]].
    rewrite Hc. simpl app. simpl decode_loop. rewrite Hidx.
    destruct (Z.eqb_spec (Z.rem num BASE) (-1)); [lia |].
    f_equal. rewrite Z.rem_mod_nonneg by (rewrite ?BASE_eq; lia).
    rewrite BASE_eq. pose proof (Z.div_mod num 62). lia.
  - rewrite encode_loop_nonpos by lia.
    now replace num with 0 by lia.
Qed.

(** Decoding the output of [encodeId] gives the number back, for every
    non-negative integer. *)
Lemma decode_encode (n : Z) : 0 <= n -> decodeShortUrl (encodeId n) = Normal n.
Proof.
  intros Hn. unfold decodeShortUrl, encodeId.
  pose proof (decode_encode_loop n Hn []) as Hloop. simpl in Hloop.
  destruct (encode_loop n []) as [| c rest] eqn:Hcode.
  - simpl in Hloop. injection Hloop as <-. reflexivity.
  - exact Hloop.
Qed.

Lemma decode_loop_valid (s : jsstring) :
  Forall in_alphabet s ->
  forall id,
    decode_loop s id = Normal (fold_left (fun id c => id * 62 + digit_value c) s id).
Proof.
  induction 1 as [| c rest Hc Hrest IH]; intros id; simpl.
  - reflexivity.
  - destruct (Z.eqb_spec (indexOf CHARACTERS c) (-1)) as [Habs | _].
    + apply indexOf_absent_iff in Habs. contradiction.
    + rewrite IH. reflexivity.
Qed.

Lemma decode_loop_invalid (s : jsstring) :
  Exists (fun c => ~ in_alphabet c) s ->
  forall id,
    exists pre c post,
      s = pre ++ c :: post /\ Forall in_alphabet pre /\ ~ in_alphabet c
      /\ decode_loop s id = Throw (invalid_character c).
Proof.
  induction s as [| x rest IH]; intros Hex id.
  - inversion Hex.
  - simpl decode_loop.
    destruct (Z.eqb_spec (indexOf CHARACTERS x) (-1)) as [Habs | Hpres].
    + exists [], x, rest. apply indexOf_absent_iff in Habs.
      repeat split; [constructor | exact Habs].
    + assert (Hx : in_alphabet x).
      { destruct (decide (x ∈ CHARACTERS)) as [Hin | Hout]; [exact Hin |].
        apply indexOf_absent_iff in Hout. contradiction. }
      apply Exists_cons in Hex. destruct Hex as [Hbad | Hex]; [contradiction |].
      destruct (IH Hex (id * BASE + indexOf CHARACTERS x))
        as (pre & c & post & -> & Hpre & Hc & Hthrow).
      exists (x :: pre), c, post.
      repeat split; [now constructor | exact Hc | exact Hthrow].
Qed.

Lemma alphabet_Forall_or_Exists (s : jsstring) :
  Forall in_alphabet s \/ Exists (fun c => ~ in_alphabet c) s.
Proof.
  induction s as [| x rest [IH | IH]].
  - left. constructor.
  - destruct (decide (x ∈ CHARACTERS)) as [Hin | Hout].
    + left. now constructor.
    + right. now apply Exists_cons_hd.
  - right. now apply Exists_cons_tl.
Qed.

(** C3. For every non-negative integer [n] below [2^31], decoding the
    encoding of [n] returns [n]: [decodeShortUrl(encodeId(n)) == n]. *)
Theorem decode_encode_roundtrip (n : Z) (Hn : 0 <= n < 2 ^ 31) :
  decodeShortUrl (encodeId n) = Normal n.
Proof. apply decode_encode. lia. Qed.

Lemma decode_encode_roundtrip_witness :
  decodeShortUrl (encodeId 2147483647) = Normal 2147483647.
Proof. apply (decode_encode_roundtrip 2147483647). lia. Defined.

(** C4. [decodeShortUrl] throws exactly when the string holds a character
    absent from the 62-character alphabet; the error it throws names the
    first such character; on a string of alphabet characters it returns
    the value accumulated left to right by [id = id * 62 + digit_value(char)].
    The returned value is stated where the accumulation is exact in
    doubles: for codes whose value is below [2^53], which includes every
    code of up to 8 characters. *)
Theorem decodeShortUrl_invalid_character (s : jsstring) :
  ((exists e, decodeShortUrl s = Throw e)
   <-> Exists (fun c => ~ in_alphabet c) s)
  /\ (forall e, decodeShortUrl s = Throw e ->
       exists pre c post,
         s = pre ++ c :: post /\ Forall in_alphabet pre /\ ~ in_alphabet c
         /\ e = Error (lit "Invalid character in short URL: " ++ [c]))
  /\ (Forall in_alphabet s ->
       fold_left (fun id c => id * 62 + digit_value c) s 0 < 2 ^ 53 ->
       decodeShortUrl s
       = Normal (fold_left (fun id c => id * 62 + digit_value c) s 0)).
Proof.
  unfold decodeShortUrl.
  split; [split |]; [| | split].
  - intros [e He]. destruct (alphabet_Forall_or_Exists s) as [Hall | Hex];
      [| exact Hex].
    rewrite (decode_loop_valid s Hall) in He. discriminate.
  - intros Hex. destruct (decode_loop_invalid s Hex 0)
      as (pre & c & post & _ & _ & _ & Hthrow).
    eexists. exact Hthrow.
  - intros e He. destruct (alphabet_Forall_or_Exists s) as [Hall | Hex].
    + rewrite (decode_loop_valid s Hall) in He. discriminate.
    + destruct (decode_loop_invalid s Hex 0)
        as (pre & c & post & Hs & Hpre & Hc & Hthrow).
      exists pre, c, post. rewrite Hthrow in He. injection He as <-.
      repeat split; assumption.
  - intros Hall _. apply decode_loop_valid. exact Hall.
Qed.

(** C6. [encodeId(0)] is ["A"], the first character of the alphabet, and
    [encodeId] returns a non-empty string on every non-negative integer. *)
Theorem encodeId_zero_nonempty (n : Z) (Hn : 0 <= n) :
  encodeId 0 = lit "A" /\ encodeId n <> [].
Proof.
  split; [reflexivity |].
  unfold encodeId. destruct (encode_loop n []); discriminate.
Qed.

Lemma encodeId_zero_nonempty_witness :
  encodeId 0 = lit "A" /\ encodeId 12345 <> [].
Proof. apply (encodeId_zero_nonempty 12345). lia. Defined.

(** C9. For every negative [n], [encodeId(n)] is ["A"]: the loop guard
    [num > 0] fails at once and the empty result falls back to the first
    alphabet character. *)
Theorem encodeId_negative (n : Z) (Hn : n < 0) :
  encode_loop n [] = [] /\ encodeId n = lit "A".
Proof.
  assert (Hloop : encode_loop n [] = []) by (apply encode_loop_nonpos; lia).
  split; [exact Hloop |].
  unfold encodeId. rewrite Hloop. reflexivity.
Qed.

Lemma encodeId_negative_witness :
  encode_loop (-7) [] = [] /\ encodeId (-7) = lit "A".
Proof. apply (encodeId_negative (-7)). lia. Defined.

End Codec.

(** ** 32-bit conversions *)

Section Int32.

Lemma ToInt32_range (x : Z) : in_int32 (ToInt32 x).
Proof.
  unfold in_int32, ToInt32.
  pose proof (Z.mod_pos_bound x (2 ^ 32) eq_refl) as Hm.
  destruct (Z.geb_spec (x mod 2 ^ 32) (2 ^ 31)); lia.
Qed.

Lemma ToInt32_small (x : Z) : in_int32 x -> ToInt32 x = x.
Proof.
  unfold in_int32, ToInt32. intros Hx.
  destruct (Z_lt_dec x 0) as [Hneg | Hpos].
  - replace (x mod 2 ^ 32) with (x + 2 ^ 32).
    + destruct (Z.geb_spec (x + 2 ^ 32) (2 ^ 31)); lia.
    + apply (Z.mod_unique_pos _ _ (-1)); lia.
  - rewrite Z.mod_small by lia.
    destruct (Z.geb_spec x (2 ^ 31)); lia.
Qed.

(** [ToInt32 x] differs from [x] by a multiple of [2^32]. *)
Lemma ToInt32_multiple (x : Z) : exists k, ToInt32 x = x + k * 2 ^ 32.
Proof.
  unfold ToInt32. pose proof (Z.div_mod x (2 ^ 32)) as Hd.
  destruct (Z.geb_spec (x mod 2 ^ 32) (2 ^ 31)).
  - exists (- (x / 2 ^ 32) - 1). lia.
  - exists (- (x / 2 ^ 32)). lia.
Qed.

Lemma ToInt32_congruent (x y k : Z) : x = y + k * 2 ^ 32 -> ToInt32 x = ToInt32 y.
Proof.
  intros ->. unfold ToInt32. now rewrite Z.mod_add by lia.
Qed.

(** A left shift by a constant below 32 is a wrapped multiplication. *)
Lemma shl_mul (x k : Z) : 0 <= k < 32 -> shl x k = ToInt32 (x * 2 ^ k).
Proof.
  intros Hk. unfold shl.
  assert (Hmask : Z.land k 31 = k).
  { change 31 with (Z.ones 5). rewrite Z.land_ones by lia.
    apply Z.mod_small. change (2 ^ 5) with 32. lia. }
  rewrite Hmask, Z.shiftl_mul_pow2 by lia.
  destruct (ToInt32_multiple x) as [j ->].
  apply (ToInt32_congruent _ _ (j * 2 ^ k)). ring.
Qed.

Lemma shl_range (x k : Z) : in_int32 (shl x k).
Proof. apply ToInt32_range. Qed.

End Int32.

(** ** The hash loops *)

Section Hash.

Lemma hash_loop_app (step : Z -> Z -> Z) (s t : jsstring) (hash : Z) :
  hash_loop step (s ++ t) hash = hash_loop step t (hash_loop step s hash).
Proof.
  revert hash. induction s as [| c s IH]; intros hash; simpl; [reflexivity |].
  apply IH.
Qed.

Lemma djb2_step_mul (hash char : Z) :
  djb2_step hash char = ToInt32 (hash * 32) + hash + char.
Proof. unfold djb2_step. now rewrite shl_mul by lia. Qed.

(** The accumulator of the source and the wrapped accumulator stay
    congruent modulo [2^32]. *)
Lemma djb2_loop_congruent (s : jsstring) :
  forall h w k, h = w + k * 2 ^ 32 ->
    exists k', hash_loop djb2_step s h
               = hash_loop djb2_wrapped_step s w + k' * 2 ^ 32.
Proof.
  induction s as [| c s IH]; intros h w k Hk; simpl.
  - now exists k.
  - rewrite djb2_step_mul. unfold djb2_wrapped_step.
    destruct (ToInt32_multiple (h * 32)) as [i Hi].
    destruct (ToInt32_multiple (w * 33 + c)) as [j Hj].
    apply (IH _ _ (i + 33 * k - j)). rewrite Hi, Hj, Hk. ring.
Qed.

Lemma djb2_wrapped_range (s : jsstring) (w : Z) :
  in_int32 w -> in_int32 (hash_loop djb2_wrapped_step s w).
Proof.
  revert w. induction s as [| c s IH]; intros w Hw; simpl; [exact Hw |].
  apply IH, ToInt32_range.
Qed.

Lemma djb2_loop_bounds (s : jsstring) :
  well_formed s ->
  forall h,
    h - 2 ^ 31 * Z.of_nat (length s)
    <= hash_loop djb2_step s h
    <= h + (2 ^ 31 + 65534) * Z.of_nat (length s).
Proof.
  induction 1 as [| c s Hc Hs IH]; intros h.
  - simpl. lia.
  - simpl hash_loop. specialize (IH (djb2_step h c)).
    unfold djb2_step in *. pose proof (shl_range h 5) as Hshl.
    unfold in_int32, is_code_unit in *.
    rewrite length_cons, Nat2Z.inj_succ. lia.
Qed.

Lemma sdbm_loop_bounds (s : jsstring) :
  well_formed s ->
  forall h,
    Z.abs (hash_loop sdbm_step s h)
    <= Z.abs h + (2 ^ 32 + 65533) * Z.of_nat (length s).
Proof.
  induction 1 as [| c s Hc Hs IH]; intros h.
  - simpl. lia.
  - simpl hash_loop. specialize (IH (sdbm_step h c)).
    unfold sdbm_step in *.
    pose proof (shl_range h 6) as H6. pose proof (shl_range h 16) as H16.
    unfold in_int32, is_code_unit in *.
    rewrite length_cons, Nat2Z.inj_succ. lia.
Qed.

(** The accumulators are integers of magnitude below [2^53], where the
    arithmetic of doubles is exact, on inputs of up to [2^20] code units. *)
Lemma hash_magnitude (s : jsstring) :
  well_formed s -> (length s <= 2 ^ 20)%nat ->
  Z.abs (djb2_hash s) < 2 ^ 53 /\ Z.abs (sdbm_hash s) < 2 ^ 53.
Proof.
  intros Hwf Hlen.
  pose proof (djb2_loop_bounds s Hwf 5381) as Hd.
  pose proof (sdbm_loop_bounds s Hwf 0) as Hs.
  fold (djb2_hash s) in Hd. fold (sdbm_hash s) in Hs.
  assert (Z.of_nat (length s) <= 2 ^ 20).
  { apply Nat2Z.inj_le in Hlen. rewrite Nat2Z.inj_pow in Hlen. exact Hlen. }
  split; lia.
Qed.

(** C1 (as stated) fails: on the URL of the specification's own example
    the accumulator of the source leaves the signed 32-bit range and
    differs from the hash wrapped after every step. *)
Lemma djb2_accumulator_outside_int32 :
  djb2_hash example_url = -6813267495
  /\ djb2_wrapped example_url = 1776667097
  /\ ~ in_int32 (djb2_hash example_url)
  /\ djb2_hash example_url <> djb2_wrapped example_url.
Proof.
  assert (Hcode : djb2_hash example_url = -6813267495)
    by (vm_compute; reflexivity).
  assert (Hspec : djb2_wrapped example_url = 1776667097)
    by (vm_compute; reflexivity).
  rewrite Hcode, Hspec. unfold in_int32.
  repeat split; lia.
Qed.

(** Below the length bound of [hash_magnitude] every sum of a DJB2 step
    is a safe integer, so the step is computed without rounding. *)
Lemma djb2_step_exact (s : jsstring) (char : Z) :
  well_formed s -> (length s <= 2 ^ 20)%nat -> is_code_unit char ->
  safe_integer (shl (djb2_hash s) 5 + djb2_hash s)
  /\ safe_integer (djb2_step (djb2_hash s) char).
Proof.
  intros Hwf Hlen Hchar. unfold safe_integer, djb2_step.
  pose proof (djb2_loop_bounds s Hwf 5381) as Hb. fold (djb2_hash s) in Hb.
  pose proof (shl_range (djb2_hash s) 5) as Hshl.
  assert (Z.of_nat (length s) <= 2 ^ 20).
  { apply Nat2Z.inj_le in Hlen. rewrite Nat2Z.inj_pow in Hlen. exact Hlen. }
  unfold in_int32, is_code_unit in *. split; lia.
Qed.

(** C1 (amended). On an input of at most [2^20] code units the DJB2 loop
    starts from 5381 and each character code updates the accumulator to
    [ToInt32(hash * 32) + hash + code]: only the shifted term is wrapped
    to 32 bits.  The accumulator is congruent modulo [2^32] to the hash
    wrapped after every step (wrapping it gives that hash); after [n]
    characters it lies between [5381 - n * 2^31] and
    [5381 + n * (2^31 + 65534)], and it stays a safe integer, below
    [2^53] in magnitude. *)
Theorem djb2_accumulator (longUrl : jsstring) (char : Z)
    (Hwf : well_formed longUrl) (Hchar : is_code_unit char)
    (Hlen : (length longUrl <= 2 ^ 20)%nat) :
  djb2_hash [] = 5381
  /\ djb2_hash (longUrl ++ [char])
     = ToInt32 (djb2_hash longUrl * 32) + djb2_hash longUrl + char
  /\ ToInt32 (djb2_hash longUrl) = djb2_wrapped longUrl
  /\ 5381 - 2 ^ 31 * Z.of_nat (length longUrl)
     <= djb2_hash longUrl
     <= 5381 + (2 ^ 31 + 65534) * Z.of_nat (length longUrl)
  /\ safe_integer (djb2_hash longUrl)
  /\ safe_integer (djb2_hash (longUrl ++ [char])).
Proof.
  split; [reflexivity |].
  assert (Hstep : djb2_hash (longUrl ++ [char])
                  = djb2_step (djb2_hash longUrl) char).
  { unfold djb2_hash. now rewrite hash_loop_app. }
  split; [rewrite Hstep; apply djb2_step_mul |]. split; [| split; [| split]].
  - unfold djb2_hash, djb2_wrapped.
    destruct (djb2_loop_congruent longUrl 5381 5381 0 eq_refl) as [k Hk].
    rewrite (ToInt32_congruent _ _ _ Hk).
    apply ToInt32_small, djb2_wrapped_range. unfold in_int32. lia.
  - apply djb2_loop_bounds. exact Hwf.
  - apply (hash_magnitude longUrl Hwf Hlen).
  - rewrite Hstep. apply (djb2_step_exact longUrl char Hwf Hlen Hchar).
Qed.

Lemma djb2_accumulator_witness :
  djb2_hash [] = 5381
  /\ djb2_hash (lit "ab" ++ [99])
     = ToInt32 (djb2_hash (lit "ab") * 32) + djb2_hash (lit "ab") + 99
  /\ ToInt32 (djb2_hash (lit "ab")) = djb2_wrapped (lit "ab")
  /\ 5381 - 2 ^ 31 * Z.of_nat (length (lit "ab"))
     <= djb2_hash (lit "ab")
     <= 5381 + (2 ^ 31 + 65534) * Z.of_nat (length (lit "ab"))
  /\ safe_integer (djb2_hash (lit "ab"))
  /\ safe_integer (djb2_hash (lit "ab" ++ [99])).
Proof.
  apply (djb2_accumulator (lit "ab") 99).
  - repeat constructor; unfold is_code_unit; simpl; lia.
  - unfold is_code_unit. lia.
  - apply Nat2Z.inj_le. rewrite Nat2Z.inj_pow. simpl. lia.
Defined.

End Hash.

(** ** The identifier *)

Section Identifier.

(** C2 (as stated) fails: with the default algorithm, the URL of the
    specification's own example gets an identifier above [2^31]. *)
Lemma identifier_above_int32 :
  identifier (merge_create_options (lit "short.url") None) example_url
  = 6813267495
  /\ ~ (0 <= identifier (merge_create_options (lit "short.url") None) example_url
        <= 2 ^ 31).
Proof.
  assert (Hid : identifier (merge_create_options (lit "short.url") None)
                  example_url = 6813267495)
    by (vm_compute; reflexivity).
  rewrite Hid. split; [reflexivity | lia].
Qed.

(** An exactly computed hash gives a safe identifier. *)
Lemma exact_hash_safe (opts : CreateShortUrlOptions) (longUrl : jsstring) :
  exact_hash opts longUrl -> 0 <= identifier opts longUrl < 2 ^ 53.
Proof.
  unfold exact_hash, identifier, compute_hash, safe_integer. intros Hexact.
  split; [apply Z.abs_nonneg |].
  destruct (hashAlgorithm opts) as [[| |] |], (customHashFn opts) as [fn |];
    try exact Hexact; destruct Hexact as [Hwf Hlen];
    apply (hash_magnitude longUrl Hwf Hlen).
Qed.

(** C2 (amended). When the hash is computed without rounding (a built-in
    algorithm on at most [2^20] code units, or a custom function that
    returns an integer below [2^53] in magnitude), the identifier under
    which [createShortUrl] stores the URL is a non-negative integer, the
    absolute value of the hash, and it is below [2^53].  It is not
    confined to [[0, 2^31]]: on [n] code units it is at most
    [5381 + n * (2^31 + 65534)] for DJB2 and at most [n * (2^32 + 65533)]
    for SDBM, and it is the absolute value of the custom function's
    result for a custom hash. *)
Theorem identifier_range (longUrl d : jsstring) (options : option CreateOverrides)
    (store : gmap Z jsstring)
    (Hexact : exact_hash (merge_create_options d options) longUrl) :
  (createShortUrl longUrl d options store).2
  = <[identifier (merge_create_options d options) longUrl := longUrl]> store
  /\ 0 <= identifier (merge_create_options d options) longUrl < 2 ^ 53
  /\ match hashAlgorithm (merge_create_options d options),
           customHashFn (merge_create_options d options) with
     | Some custom, Some fn =>
         identifier (merge_create_options d options) longUrl
         = Z.abs (fn longUrl)
     | Some sdbm, _ =>
         identifier (merge_create_options d options) longUrl
         <= (2 ^ 32 + 65533) * Z.of_nat (length longUrl)
     | _, _ =>
         identifier (merge_create_options d options) longUrl
         <= 5381 + (2 ^ 31 + 65534) * Z.of_nat (length longUrl)
     end.
Proof.
  split; [reflexivity |]. split; [now apply exact_hash_safe |].
  revert Hexact. unfold exact_hash, identifier, compute_hash.
  destruct (hashAlgorithm (merge_create_options d options)) as [[| |] |],
    (customHashFn (merge_create_options d options)) as [fn |];
    try reflexivity; intros [Hwf Hlen].
  all: pose proof (djb2_loop_bounds longUrl Hwf 5381) as Hd;
    pose proof (sdbm_loop_bounds longUrl Hwf 0) as Hs;
    fold (djb2_hash longUrl) in Hd; fold (sdbm_hash longUrl) in Hs; lia.
Qed.

Lemma identifier_range_witness :
  (createShortUrl (lit "ab") (lit "short.url") None ∅).2
  = <[identifier (merge_create_options (lit "short.url") None) (lit "ab")
      := lit "ab"]> ∅
  /\ 0 <= identifier (merge_create_options (lit "short.url") None) (lit "ab")
     < 2 ^ 53
  /\ identifier (merge_create_options (lit "short.url") None) (lit "ab")
     <= 5381 + (2 ^ 31 + 65534) * 2.
Proof.
  apply (identifier_range (lit "ab") (lit "short.url") None ∅).
  split.
  - repeat constructor; unfold is_code_unit; simpl; lia.
  - apply Nat2Z.inj_le. rewrite Nat2Z.inj_pow. simpl. lia.
Defined.

End Identifier.

(** ** URL assembly *)

Section Assembly.

(** C7 (as stated) fails: with protocol inclusion enabled and an empty
    protocol, the source emits no ["://"]. *)
Lemma buildShortUrl_empty_protocol :
  buildShortUrl 0 (OptionsObject empty_protocol_options) = lit "short.url/r/A"
  /\ concatenation_spec (configuration empty_protocol_options) (encodeId 0)
     = lit "://short.url/r/A"
  /\ buildShortUrl 0 (OptionsObject empty_protocol_options)
     <> concatenation_spec (configuration empty_protocol_options) (encodeId 0).
Proof.
  assert (Hcode : buildShortUrl 0 (OptionsObject empty_protocol_options)
                  = lit "short.url/r/A") by (vm_compute; reflexivity).
  assert (Hspec : concatenation_spec (configuration empty_protocol_options)
                    (encodeId 0) = lit "://short.url/r/A")
    by (vm_compute; reflexivity).
  rewrite Hcode, Hspec. repeat split. discriminate.
Qed.

(** C7 (amended). For every identifier and every options object, each
    optional property absent, set to [undefined] or set to a value,
    [buildShortUrl] returns the concatenation, in order, of the protocol
    followed by ["://"] (only when protocol inclusion is enabled and the
    protocol is not empty), the domain, the separator followed by the
    redirect segment (only when redirect-path inclusion is enabled and
    the segment is not empty), and the separator followed by the base-62
    short code of the identifier.  An absent property takes its default;
    a property set to [undefined] does not: such a flag is off, such a
    protocol or segment is left out, such a separator is rendered as the
    text [undefined]. *)
Theorem buildShortUrl_concatenation (id : Z) (o : ShortUrlOptions) :
  buildShortUrl id (OptionsObject o) = concatenation (configuration o) (encodeId id).
Proof.
  destruct o as [d irp rps ip pr sep].
  unfold buildShortUrl, concatenation, configuration, spread; simpl.
  destruct ip as [| [[|] |]]; destruct pr as [| [[| p0 pr] |]];
    destruct irp as [| [[|] |]]; destruct rps as [| [[| r0 rps] |]];
    destruct sep as [| [sep |]];
    simpl; rewrite <- ?app_assoc; reflexivity.
Qed.

(** The legacy call with a domain string is the call with an options
    object that only sets the domain. *)
Lemma buildShortUrl_domain_string (id : Z) (d : jsstring) :
  buildShortUrl id (DomainString d)
  = buildShortUrl id (OptionsObject (with_domain
      {| domain := []; includeRedirectPath := Absent;
         redirectPathSegment := Absent; includeProtocol := Absent;
         protocol := Absent; pathSeparator := Absent |} d)).
Proof. reflexivity. Qed.

End Assembly.

(** ** Creation and the store *)

Section Store.

(** With a custom function that does not use its state,
    [createShortUrl_stateful] is [createShortUrl]. *)
Lemma createShortUrl_stateful_pure {State : Type} (fn : jsstring -> Z)
    (longUrl d : jsstring) (o : CreateOverrides) (state : State)
    (store : gmap Z jsstring) :
  with_customHashFn o = Some fn ->
  createShortUrl_stateful (fun url st => (fn url, st)) longUrl d (Some o)
    state store
  = ((createShortUrl longUrl d (Some o) store).1, state,
     (createShortUrl longUrl d (Some o) store).2).
Proof.
  intros Hfn. unfold createShortUrl_stateful, createShortUrl, compute_hash.
  simpl. rewrite Hfn.
  destruct (with_hashAlgorithm o) as [[| |] |]; reflexivity.
Qed.






End Store.

(** ** Decoding a short URL *)

Section Decode.

Lemma split_cons (sep : Z) (s : jsstring) :
  exists part parts, split sep s = part :: parts.
Proof.
  induction s as [| c s [part [parts IH]]]; simpl.
  - now eexists _, _.
  - destruct (c =? sep); [now eexists _, _ |].
    rewrite IH. now eexists _, _.
Qed.

(** [extractShortCode] always finds a last segment. *)
Lemma extractShortCode_defined (shortUrl : jsstring) :
  exists shortCode, extractShortCode shortUrl = Some shortCode.
Proof.
  unfold extractShortCode.
  destruct (split_cons slash (remove_protocol shortUrl)) as (part & parts & ->).
  apply (last_is_Some (part :: parts)). discriminate.
Qed.

(** [decodeUrl] completes normally on every input. *)
Lemma decodeUrl_total (shortUrl : jsstring) (store : gmap Z jsstring) :
  exists result, decodeUrl shortUrl store = Normal result.
Proof.
  unfold decodeUrl.
  destruct (extractShortCode shortUrl) as [code |]; simpl.
  - destruct (decodeShortUrl code); simpl; now eexists.
  - now eexists.
Qed.

(** C5. [decodeUrl] never propagates a failure: when decoding the short
    code throws, and when no mapping is stored under the decoded
    identifier, it returns the same [undefined]. *)
Theorem decodeUrl_no_result (shortUrl shortCode : jsstring)
    (store : gmap Z jsstring)
    (Hcode : extractShortCode shortUrl = Some shortCode)
    (Hfail : (exists e, decodeShortUrl shortCode = Throw e)
             \/ (exists id, decodeShortUrl shortCode = Normal id
                            /\ getOriginalUrl id store = None)) :
  (forall url st, exists result, decodeUrl url st = Normal result)
  /\ decodeUrl shortUrl store = Normal None.
Proof.
  split; [apply decodeUrl_total |].
  unfold decodeUrl. rewrite Hcode.
  destruct Hfail as [[e ->] | (id & -> & Hnone)]; simpl.
  - reflexivity.
  - now rewrite Hnone.
Qed.

Lemma decodeUrl_no_result_witness :
  (forall url st, exists result, decodeUrl url st = Normal result)
  /\ decodeUrl (lit "https://short.url/r/ABC$123") ∅ = Normal None.
Proof.
  apply (decodeUrl_no_result (lit "https://short.url/r/ABC$123") (lit "ABC$123") ∅).
  - reflexivity.
  - left. exists (invalid_character 36). reflexivity.
Defined.

End Decode.

(** ** More on the codec *)

Section CodecFacts.

Lemma in_alphabet_indexOf (c : Z) :
  in_alphabet c <-> indexOf CHARACTERS c <> -1.
Proof.
  unfold in_alphabet. split.
  - intros Hin Hidx. apply indexOf_absent_iff in Hidx. contradiction.
  - intros Hidx. destruct (decide (c ∈ CHARACTERS)) as [Hin | Hout]; [exact Hin |].
    apply indexOf_absent_iff in Hout. contradiction.
Qed.

Lemma char_at_alphabet (k : Z) :
  0 <= k < BASE ->
  exists c, char_at CHARACTERS k = [c] /\ in_alphabet c /\ digit_value c = k.
Proof.
  intros Hk. destruct (char_at_digit k Hk) as [c [Hc Hidx]].
  exists c. repeat split; [exact Hc | | exact Hidx].
  apply in_alphabet_indexOf. lia.
Qed.

Lemma digit_value_range (c : Z) : in_alphabet c -> 0 <= digit_value c < 62.
Proof. intros Hc. apply (indexOf_position c Hc). Qed.

Lemma rem_BASE_range (num : Z) : 0 < num -> 0 <= Z.rem num BASE < BASE.
Proof. intros Hnum. rewrite BASE_eq. apply Z.rem_bound_pos; lia. Qed.

(** The loop of [encodeId] only prepends alphabet characters. *)
Lemma encode_loop_alphabet (num : Z) (shortUrl : jsstring) :
  Forall in_alphabet shortUrl -> Forall in_alphabet (encode_loop num shortUrl).
Proof.
  funelim (encode_loop num shortUrl); intros Hacc.
  - match goal with IH : _ -> Forall in_alphabet _ |- _ => apply IH end.
    destruct (char_at_alphabet _ (rem_BASE_range num ltac:(lia)))
      as (c & -> & Hc & _).
    now constructor.
  - exact Hacc.
Qed.

Lemma encodeId_alphabet (id : Z) : Forall in_alphabet (encodeId id).
Proof.
  unfold encodeId.
  pose proof (encode_loop_alphabet id [] ltac:(constructor)) as Hloop.
  destruct (encode_loop id []); [| exact Hloop].
  repeat constructor.
Qed.

Lemma code_value_snoc (s : jsstring) (c : Z) :
  code_value (s ++ [c]) = code_value s * 62 + digit_value c.
Proof. unfold code_value. now rewrite fold_left_app. Qed.

(** The accumulator of the decoding loop weighs in with [62^length]. *)
Lemma fold_value_shift (s : jsstring) (id : Z) :
  fold_left (fun id c => id * 62 + digit_value c) s id
  = id * 62 ^ Z.of_nat (length s) + code_value s.
Proof.
  unfold code_value. revert id. induction s as [| c s IH]; intros id.
  - simpl. lia.
  - simpl fold_left. rewrite (IH (id * 62 + digit_value c)), (IH (0 * 62 + digit_value c)).
    rewrite length_cons, Nat2Z.inj_succ, Z.pow_succ_r by lia. ring.
Qed.

Lemma code_value_cons (c : Z) (s : jsstring) :
  code_value (c :: s) = digit_value c * 62 ^ Z.of_nat (length s) + code_value s.
Proof.
  unfold code_value at 1. simpl fold_left. rewrite fold_value_shift. ring.
Qed.

Lemma code_value_bounds (s : jsstring) :
  Forall in_alphabet s -> 0 <= code_value s < 62 ^ Z.of_nat (length s).
Proof.
  induction 1 as [| c s Hc Hs IH].
  - unfold code_value. simpl. lia.
  - rewrite code_value_cons, length_cons, Nat2Z.inj_succ, Z.pow_succ_r by lia.
    pose proof (digit_value_range c Hc). nia.
Qed.

(** The value of a code of up to 8 characters is below [2^53]. *)
Lemma short_code_safe (s : jsstring) :
  Forall in_alphabet s -> (length s <= 8)%nat -> code_value s < 2 ^ 53.
Proof.
  intros Hall Hlen. pose proof (code_value_bounds s Hall) as Hv.
  assert (62 ^ Z.of_nat (length s) <= 62 ^ 8)
    by (apply Z.pow_le_mono_r; lia).
  lia.
Qed.

(** A successful decoding read alphabet characters only and returned
    their value. *)
Lemma decodeShortUrl_Normal (s : jsstring) (v : Z) :
  decodeShortUrl s = Normal v -> Forall in_alphabet s /\ v = code_value s.
Proof.
  intros Hdec. unfold decodeShortUrl in Hdec.
  destruct (alphabet_Forall_or_Exists s) as [Hall | Hex].
  - split; [exact Hall |]. rewrite (decode_loop_valid s Hall) in Hdec.
    now injection Hdec as <-.
  - destruct (decode_loop_invalid s Hex 0) as (? & ? & ? & _ & _ & _ & Hthrow).
    rewrite Hthrow in Hdec. discriminate.
Qed.

Lemma decodeShortUrl_alphabet (s : jsstring) :
  Forall in_alphabet s -> decodeShortUrl s = Normal (code_value s).
Proof. intros Hall. apply (decode_loop_valid s Hall). Qed.

Lemma strip_leading_zeros_nil_value (s : jsstring) :
  Forall in_alphabet s ->
  (strip_leading_zeros s = [] <-> code_value s = 0).
Proof.
  induction 1 as [| c s Hc Hs IH]; [easy |].
  rewrite code_value_cons. simpl.
  pose proof (digit_value_range c Hc) as Hd.
  pose proof (code_value_bounds s Hs) as Hv.
  destruct (Z.eqb_spec (digit_value c) 0) as [-> | Hne].
  - rewrite IH. lia.
  - split; [discriminate | nia].
Qed.

Lemma strip_leading_zeros_snoc (s : jsstring) (c : Z) :
  strip_leading_zeros (s ++ [c])
  = match strip_leading_zeros s with
    | [] => if digit_value c =? 0 then [] else [c]
    | _ :: _ => strip_leading_zeros s ++ [c]
    end.
Proof.
  induction s as [| x s IH]; simpl; [reflexivity |].
  destruct (digit_value x =? 0); [exact IH | reflexivity].
Qed.

(** Encoding the value of a code rebuilds the code without its leading
    zero digits. *)
Lemma encode_loop_code_value (s : jsstring) :
  Forall in_alphabet s ->
  forall shortUrl,
    encode_loop (code_value s) shortUrl = strip_leading_zeros s ++ shortUrl.
Proof.
  induction s as [| c s IH] using rev_ind; intros Hall shortUrl.
  - now rewrite encode_loop_nonpos.
  - apply Forall_app in Hall. destruct Hall as [Hs Hc].
    apply Forall_cons in Hc. destruct Hc as [Hc _].
    pose proof (digit_value_range c Hc) as Hd.
    pose proof (code_value_bounds s Hs) as Hv.
    rewrite strip_leading_zeros_snoc, code_value_snoc.
    destruct (Z.eq_dec (code_value s * 62 + digit_value c) 0) as [Hzero | Hpos].
    + rewrite Hzero, encode_loop_nonpos by lia.
      assert (Hs0 : code_value s = 0) by lia.
      apply (strip_leading_zeros_nil_value s Hs) in Hs0. rewrite Hs0.
      destruct (Z.eqb_spec (digit_value c) 0); [reflexivity | lia].
    + rewrite encode_loop_pos by lia.
      rewrite BASE_eq, Z.rem_mod_nonneg by lia.
      replace ((code_value s * 62 + digit_value c) / 62) with (code_value s)
        by (apply (Z.div_unique_pos _ _ _ (digit_value c)); lia).
      replace ((code_value s * 62 + digit_value c) mod 62) with (digit_value c)
        by (apply (Z.mod_unique_pos _ _ (code_value s)); lia).
      destruct (indexOf_position c Hc) as [_ Hch].
      fold (digit_value c) in Hch. rewrite Hch.
      rewrite (IH Hs). simpl app.
      destruct (strip_leading_zeros s) as [| x rest] eqn:Hstrip.
      * apply (strip_leading_zeros_nil_value s Hs) in Hstrip.
        destruct (Z.eqb_spec (digit_value c) 0); [lia | reflexivity].
      * now rewrite <- app_assoc.
Qed.

Lemma encodeId_code_value (s : jsstring) :
  Forall in_alphabet s ->
  encodeId (code_value s) = or_else (strip_leading_zeros s) (lit "A").
Proof.
  intros Hall. unfold encodeId.
  now rewrite (encode_loop_code_value s Hall), app_nil_r.
Qed.

(** The loop adds one character per power of 62 below the number. *)
Lemma encode_loop_length (k : nat) :
  forall num shortUrl,
    62 ^ Z.of_nat k <= num < 62 ^ Z.of_nat (S k) ->
    length (encode_loop num shortUrl) = (S k + length shortUrl)%nat.
Proof.
  induction k as [| k IH]; intros num shortUrl Hnum.
  - change (62 ^ Z.of_nat 0) with 1 in Hnum. change (62 ^ Z.of_nat 1) with 62 in Hnum.
    rewrite encode_loop_pos by lia.
    destruct (char_at_alphabet _ (rem_BASE_range num ltac:(lia))) as (c & -> & _).
    rewrite BASE_eq, Z.div_small by lia.
    now rewrite encode_loop_nonpos.
  - rewrite !Nat2Z.inj_succ, !Z.pow_succ_r in Hnum by lia.
    assert (Hpow : 0 < 62 ^ Z.of_nat k) by (apply Z.pow_pos_nonneg; lia).
    rewrite encode_loop_pos by lia.
    destruct (char_at_alphabet _ (rem_BASE_range num ltac:(lia))) as (c & -> & _).
    rewrite IH.
    + simpl. lia.
    + rewrite BASE_eq, Nat2Z.inj_succ, Z.pow_succ_r by lia. split.
      * apply Z.div_le_lower_bound; lia.
      * apply Z.div_lt_upper_bound; lia.
Qed.

(** X1. For every integer [n] below [2^53], [encodeId] only emits
    alphabet characters, so [decodeShortUrl] does not throw on its output;
    decoding it returns [n] for [n >= 0] and [0] for a negative [n]. *)
Theorem decodeShortUrl_encodeId_max (n : Z) (Hn : n < 2 ^ 53) :
  Forall in_alphabet (encodeId n)
  /\ decodeShortUrl (encodeId n) = Normal (Z.max 0 n).
Proof.
  split; [apply encodeId_alphabet |].
  destruct (Z_lt_dec n 0) as [Hneg | Hpos].
  - unfold encodeId. rewrite encode_loop_nonpos by lia.
    rewrite Z.max_l by lia. reflexivity.
  - rewrite Z.max_r by lia. apply decode_encode. lia.
Qed.

Lemma decodeShortUrl_encodeId_max_witness :
  Forall in_alphabet (encodeId (-5))
  /\ decodeShortUrl (encodeId (-5)) = Normal (Z.max 0 (-5)).
Proof. apply (decodeShortUrl_encodeId_max (-5)). lia. Defined.

(** X2. [encodeId] is injective on the non-negative integers: two
    different identifiers never get the same short code. *)
Theorem encodeId_injective (a b : Z) (Ha : 0 <= a) (Hb : 0 <= b)
    (Hcode : encodeId a = encodeId b) :
  a = b.
Proof.
  pose proof (decode_encode a Ha) as Hda. pose proof (decode_encode b Hb) as Hdb.
  rewrite Hcode, Hdb in Hda. now injection Hda.
Qed.

Lemma encodeId_injective_witness : 12345 = 12345.
Proof. apply (encodeId_injective 12345 12345); [lia | lia | reflexivity]. Defined.

(** X3. A number [n] below [2^53] with [62^k <= n < 62^(k+1)] is
    encoded in exactly [k + 1] characters. *)
Theorem encodeId_length (k : nat) (n : Z)
    (Hn : 62 ^ Z.of_nat k <= n < 62 ^ Z.of_nat (S k)) (Hsafe : n < 2 ^ 53) :
  length (encodeId n) = S k.
Proof.
  unfold encodeId. pose proof (encode_loop_length k n [] Hn) as Hlen.
  destruct (encode_loop n []); simpl in *; [lia |]. lia.
Qed.

Lemma encodeId_length_witness : length (encodeId 2147483647) = 6%nat.
Proof. apply (encodeId_length 5 2147483647); simpl; lia. Defined.

(** X4. When [decodeShortUrl] returns a value [v] below [2^53] on a
    code, [encodeId v] is that code without its leading ["A"]s, and ["A"]
    when nothing is left: leading zero digits are not preserved. *)
Theorem encodeId_decodeShortUrl_canonical (s : jsstring) (v : Z)
    (Hdec : decodeShortUrl s = Normal v) (Hsafe : v < 2 ^ 53) :
  encodeId v = or_else (strip_leading_zeros s) (lit "A").
Proof.
  apply decodeShortUrl_Normal in Hdec. destruct Hdec as [Hall ->].
  now apply encodeId_code_value.
Qed.

Lemma encodeId_decodeShortUrl_canonical_witness :
  encodeId 62 = or_else (strip_leading_zeros (lit "AABA")) (lit "A").
Proof.
  apply (encodeId_decodeShortUrl_canonical (lit "AABA") 62);
    [reflexivity | lia].
Defined.

(** X5. The code of a positive number has no leading zero digit: it
    does not start with ["A"]. *)
Theorem encodeId_no_leading_zero (n : Z) (Hn : 0 < n) :
  strip_leading_zeros (encodeId n) = encodeId n.
Proof.
  pose proof (encodeId_alphabet n) as Hall.
  pose proof (decode_encode n ltac:(lia)) as Hdec.
  rewrite (decodeShortUrl_alphabet _ Hall) in Hdec. injection Hdec as Hval.
  pose proof (encodeId_code_value _ Hall) as Hcanon. rewrite Hval in Hcanon.
  destruct (strip_leading_zeros (encodeId n)) as [| c rest] eqn:Hstrip.
  - apply (strip_leading_zeros_nil_value _ Hall) in Hstrip. lia.
  - simpl in Hcanon. now rewrite Hcanon.
Qed.

Lemma encodeId_no_leading_zero_witness :
  strip_leading_zeros (encodeId 12345) = encodeId 12345.
Proof. apply (encodeId_no_leading_zero 12345). lia. Defined.

(** X6. [decodeShortUrl] is injective on codes of equal length as long as
    the value is below [2^53]: two different codes of the same length do
    not decode to the same such number. *)
Theorem decodeShortUrl_injective_length (s t : jsstring) (v : Z)
    (Hlen : length s = length t)
    (Hs : decodeShortUrl s = Normal v) (Ht : decodeShortUrl t = Normal v)
    (Hsafe : v < 2 ^ 53) :
  s = t.
Proof.
  apply decodeShortUrl_Normal in Hs, Ht.
  destruct Hs as [Hs ->], Ht as [Ht Hval]. clear Hsafe.
  revert t Hlen Ht Hval.
  induction Hs as [| c s Hc Hs IH]; intros [| d t] Hlen Ht Hval;
    try discriminate; [reflexivity |].
  apply Forall_cons in Ht. destruct Ht as [Hd Ht].
  injection Hlen as Hlen. rewrite !code_value_cons, <- Hlen in Hval.
  pose proof (code_value_bounds s Hs) as Hvs.
  pose proof (code_value_bounds t Ht) as Hvt. rewrite <- Hlen in Hvt.
  assert (Hdigit : digit_value c = digit_value d) by nia.
  assert (Hrest : code_value s = code_value t) by nia.
  f_equal.
  - destruct (indexOf_position c Hc) as [_ Hcc].
    destruct (indexOf_position d Hd) as [_ Hdd].
    fold (digit_value c) in Hcc. fold (digit_value d) in Hdd.
    rewrite Hdigit, Hdd in Hcc. now injection Hcc.
  - apply IH; assumption.
Qed.

Lemma decodeShortUrl_injective_length_witness : lit "DNH" = lit "DNH".
Proof.
  apply (decodeShortUrl_injective_length (lit "DNH") (lit "DNH") 12345);
    [reflexivity | reflexivity | reflexivity | lia].
Defined.

End CodecFacts.

(** ** More on the hashes *)

Section HashFacts.

Lemma sdbm_step_mul (hash char : Z) :
  sdbm_step hash char
  = char + ToInt32 (hash * 64) + ToInt32 (hash * 65536) - hash.
Proof. unfold sdbm_step. now rewrite !shl_mul by lia. Qed.

Lemma sdbm_loop_congruent (s : jsstring) :
  forall h w k, h = w + k * 2 ^ 32 ->
    exists k', hash_loop sdbm_step s h
               = hash_loop sdbm_wrapped_step s w + k' * 2 ^ 32.
Proof.
  induction s as [| c s IH]; intros h w k Hk; simpl.
  - now exists k.
  - rewrite sdbm_step_mul. unfold sdbm_wrapped_step.
    destruct (ToInt32_multiple (h * 64)) as [i Hi].
    destruct (ToInt32_multiple (h * 65536)) as [i' Hi'].
    destruct (ToInt32_multiple (w * 65599 + c)) as [j Hj].
    apply (IH _ _ (i + i' + 65599 * k - j)). rewrite Hi, Hi', Hj, Hk. ring.
Qed.

Lemma sdbm_wrapped_range (s : jsstring) (w : Z) :
  in_int32 w -> in_int32 (hash_loop sdbm_wrapped_step s w).
Proof.
  revert w. induction s as [| c s IH]; intros w Hw; simpl; [exact Hw |].
  apply IH, ToInt32_range.
Qed.

(** X7. On an input of at most [2^20] code units the SDBM loop starts
    from 0 and each character code updates the accumulator to
    [code + ToInt32(hash * 64) + ToInt32(hash * 65536) - hash]: the two
    shifts are wrapped to 32 bits, the sum is not.  Wrapping the
    accumulator gives the hash [hash * 65599 + code] wrapped after every
    step; after [n] characters its magnitude is at most
    [n * (2^32 + 65533)], and it stays a safe integer. *)
Theorem sdbm_accumulator (longUrl : jsstring) (char : Z)
    (Hwf : well_formed longUrl) (Hchar : is_code_unit char)
    (Hlen : (length longUrl <= 2 ^ 20)%nat) :
  sdbm_hash [] = 0
  /\ sdbm_hash (longUrl ++ [char])
     = char + ToInt32 (sdbm_hash longUrl * 64)
       + ToInt32 (sdbm_hash longUrl * 65536) - sdbm_hash longUrl
  /\ ToInt32 (sdbm_hash longUrl) = sdbm_wrapped longUrl
  /\ Z.abs (sdbm_hash longUrl) <= (2 ^ 32 + 65533) * Z.of_nat (length longUrl)
  /\ safe_integer (sdbm_hash longUrl)
  /\ safe_integer (sdbm_hash (longUrl ++ [char])).
Proof.
  pose proof (sdbm_loop_bounds longUrl Hwf 0) as Hb.
  fold (sdbm_hash longUrl) in Hb.
  assert (Hstep : sdbm_hash (longUrl ++ [char])
                  = sdbm_step (sdbm_hash longUrl) char).
  { unfold sdbm_hash. now rewrite hash_loop_app. }
  split; [reflexivity |].
  split; [rewrite Hstep; apply sdbm_step_mul |]. split; [| split; [| split]].
  - unfold sdbm_hash, sdbm_wrapped.
    destruct (sdbm_loop_congruent longUrl 0 0 0 eq_refl) as [k Hk].
    rewrite (ToInt32_congruent _ _ _ Hk).
    apply ToInt32_small, sdbm_wrapped_range. unfold in_int32. lia.
  - lia.
  - apply (hash_magnitude longUrl Hwf Hlen).
  - rewrite Hstep. unfold safe_integer, sdbm_step.
    pose proof (shl_range (sdbm_hash longUrl) 6) as H6.
    pose proof (shl_range (sdbm_hash longUrl) 16) as H16.
    assert (Z.of_nat (length longUrl) <= 2 ^ 20).
    { apply Nat2Z.inj_le in Hlen. rewrite Nat2Z.inj_pow in Hlen. exact Hlen. }
    unfold in_int32, is_code_unit in *. lia.
Qed.

Lemma sdbm_accumulator_witness :
  sdbm_hash [] = 0
  /\ sdbm_hash (lit "zzzz" ++ [122])
     = 122 + ToInt32 (sdbm_hash (lit "zzzz") * 64)
       + ToInt32 (sdbm_hash (lit "zzzz") * 65536) - sdbm_hash (lit "zzzz")
  /\ ToInt32 (sdbm_hash (lit "zzzz")) = sdbm_wrapped (lit "zzzz")
  /\ Z.abs (sdbm_hash (lit "zzzz"))
     <= (2 ^ 32 + 65533) * Z.of_nat (length (lit "zzzz"))
  /\ safe_integer (sdbm_hash (lit "zzzz"))
  /\ safe_integer (sdbm_hash (lit "zzzz" ++ [122])).
Proof.
  apply (sdbm_accumulator (lit "zzzz") 122).
  - repeat constructor; unfold is_code_unit; simpl; lia.
  - unfold is_code_unit. lia.
  - apply Nat2Z.inj_le. rewrite Nat2Z.inj_pow. simpl. lia.
Defined.

(** X8. The custom hash function is consulted only when the algorithm is
    ["custom"] and a function is supplied: with ["custom"] and no function
    [createShortUrl] silently stores the URL under its DJB2 identifier,
    and a function supplied with another algorithm is ignored. *)
Theorem createShortUrl_hash_fallback (longUrl d : jsstring) (o : CreateOverrides)
    (store : gmap Z jsstring)
    (Hsel : with_hashAlgorithm o <> Some custom \/ with_customHashFn o = None) :
  (createShortUrl longUrl d (Some o) store).2
  = <[Z.abs (match with_hashAlgorithm o with
             | Some sdbm => sdbm_hash longUrl
             | _ => djb2_hash longUrl
             end) := longUrl]> store.
Proof.
  unfold createShortUrl, storeUrlMapping, compute_hash, merge_create_options.
  simpl. destruct (with_hashAlgorithm o) as [[| |] |],
    (with_customHashFn o) as [fn |]; simpl; try reflexivity.
  destruct Hsel; congruence.
Qed.

Lemma createShortUrl_hash_fallback_witness :
  (createShortUrl example_url (lit "short.url")
     (Some {| with_includeRedirectPath := Absent;
              with_redirectPathSegment := Absent;
              with_includeProtocol := Absent;
              with_protocol := Absent;
              with_pathSeparator := Absent;
              with_hashAlgorithm := Some custom;
              with_customHashFn := None |}) ∅).2
  = <[Z.abs (djb2_hash example_url) := example_url]> ∅.
Proof.
  apply (createShortUrl_hash_fallback example_url (lit "short.url")
           {| with_includeRedirectPath := Absent;
              with_redirectPathSegment := Absent;
              with_includeProtocol := Absent;
              with_protocol := Absent;
              with_pathSeparator := Absent;
              with_hashAlgorithm := Some custom;
              with_customHashFn := None |} ∅).
  right. reflexivity.
Defined.

End HashFacts.

(** ** Short URLs end to end *)

Section EndToEnd.

(** Closes [exact_hash] for a short literal hashed by a built-in loop. *)
Local Ltac short_input :=
  split;
  [ repeat constructor; unfold is_code_unit; simpl; lia
  | apply Nat2Z.inj_le; rewrite Nat2Z.inj_pow; simpl; lia ].

Lemma strip_prefix_Some (p s rest : jsstring) :
  strip_prefix p s = Some rest -> s = p ++ rest.
Proof.
  revert s. induction p as [| x p IH]; intros s Hs.
  - simpl in Hs. now injection Hs as ->.
  - destruct s as [| y s]; simpl in Hs; [discriminate |].
    destruct (Z.eqb_spec x y) as [-> | _]; [| discriminate].
    simpl. f_equal. now apply IH.
Qed.

(** A string that holds the separator splits in two parts at least. *)
Lemma split_with (sep : Z) (front back : jsstring) :
  exists p1 p2 parts, split sep (front ++ sep :: back) = p1 :: p2 :: parts.
Proof.
  induction front as [| c front (p1 & p2 & parts & IH)]; simpl.
  - rewrite Z.eqb_refl. destruct (split_cons sep back) as (part & parts & ->).
    now eexists _, _, _.
  - rewrite IH. destruct (c =? sep); now eexists _, _, _.
Qed.

(** Only what follows the last separator matters for the last part. *)
Lemma last_split_after (sep : Z) (front back : jsstring) :
  last (split sep (front ++ sep :: back)) = last (split sep back).
Proof.
  induction front as [| c front IH]; simpl.
  - rewrite Z.eqb_refl. destruct (split_cons sep back) as (part & parts & ->).
    reflexivity.
  - destruct (split_with sep front back) as (p1 & p2 & parts & Hsplit).
    rewrite Hsplit in IH |- *.
    destruct (c =? sep); exact IH.
Qed.

Lemma split_without (sep : Z) (s : jsstring) : sep ∉ s -> split sep s = [s].
Proof.
  induction s as [| c s IH]; intros Hsep; simpl; [reflexivity |].
  apply not_elem_of_cons in Hsep. destruct Hsep as [Hne Hs].
  destruct (Z.eqb_spec c sep); [congruence |].
  now rewrite (IH Hs).
Qed.

(** The last part of a string that ends with separator-free text ends
    with that text. *)
Lemma last_split_app (sep : Z) (front back : jsstring) :
  sep ∉ back -> exists tail, last (split sep (front ++ back)) = Some (tail ++ back).
Proof.
  intros Hback. induction front as [| c front [tail IH]]; simpl.
  - exists []. now rewrite (split_without sep back Hback).
  - destruct (split_cons sep (front ++ back)) as (part & parts & Hsplit).
    rewrite Hsplit in IH |- *.
    destruct (c =? sep); [now exists tail |].
    destruct parts.
    + simpl in IH |- *. injection IH as ->. now exists (c :: tail).
    + now exists tail.
Qed.

(** Removing the protocol never changes the last part: the removed text
    ends with a slash. *)
Lemma extractShortCode_last (shortUrl : jsstring) :
  extractShortCode shortUrl = last (split slash shortUrl).
Proof.
  unfold extractShortCode, remove_protocol.
  destruct (strip_prefix (lit "https://") shortUrl) as [rest |] eqn:Hs.
  - apply strip_prefix_Some in Hs. subst shortUrl. symmetry.
    apply (last_split_after slash (lit "https:/") rest).
  - destruct (strip_prefix (lit "http://") shortUrl) as [rest |] eqn:Hp;
      [| reflexivity].
    apply strip_prefix_Some in Hp. subst shortUrl. symmetry.
    apply (last_split_after slash (lit "http:/") rest).
Qed.

Lemma alphabet_without_slash (code : jsstring) :
  Forall in_alphabet code -> slash ∉ code.
Proof.
  intros Hall Hin. rewrite Forall_forall in Hall. specialize (Hall _ Hin).
  apply in_alphabet_indexOf in Hall. apply Hall. reflexivity.
Qed.

(** The short URL ends with the separator and the short code. *)
Lemma buildShortUrl_ends (id : Z) (o : ShortUrlOptions) :
  exists front,
    buildShortUrl id (OptionsObject o)
    = front ++ template (get (pathSeparator (spread DEFAULT_SHORT_URL_OPTIONS o)))
            ++ encodeId id.
Proof. unfold buildShortUrl. cbv zeta. eexists. reflexivity. Qed.

Lemma createShortUrl_ends (longUrl d : jsstring) (options : option CreateOverrides)
    (store : gmap Z jsstring) :
  exists front,
    (createShortUrl longUrl d options store).1
    = front ++ separator_of options
            ++ encodeId (identifier (merge_create_options d options) longUrl).
Proof.
  destruct (buildShortUrl_ends
              (identifier (merge_create_options d options) longUrl)
              (url_options (merge_create_options d options))) as [front Hurl].
  exists front.
  change ((createShortUrl longUrl d options store).1)
    with (buildShortUrl (identifier (merge_create_options d options) longUrl)
            (OptionsObject (url_options (merge_create_options d options)))).
  rewrite Hurl. do 2 f_equal.
  destruct options as [o |]; [| reflexivity].
  unfold separator_of, merged. simpl.
  destruct (with_pathSeparator o); reflexivity.
Qed.

(** X9. [extractShortCode] returns the text after the last ["/"] of the
    URL, and the whole URL when it has no ["/"], with or without a
    leading [http://] or [https://]. *)
Theorem extractShortCode_last_segment (front code : jsstring)
    (Hcode : slash ∉ code) :
  extractShortCode code = Some code
  /\ extractShortCode (front ++ slash :: code) = Some code.
Proof.
  rewrite !extractShortCode_last, last_split_after.
  now rewrite (split_without slash code Hcode).
Qed.

Lemma extractShortCode_last_segment_witness :
  extractShortCode (lit "DNH") = Some (lit "DNH")
  /\ extractShortCode (lit "https://short.url/r" ++ slash :: lit "DNH")
     = Some (lit "DNH").
Proof.
  apply (extractShortCode_last_segment (lit "https://short.url/r") (lit "DNH")).
  apply (bool_decide_unpack (slash ∉ lit "DNH")). vm_compute. exact I.
Defined.

(** X10. [decodeUrl] looks at the last part of the URL only: whatever
    precedes the last ["/"], domain included, is ignored, and a code of
    alphabet characters whose value is below [2^53] is looked up under
    that value. *)
Theorem decodeUrl_last_segment (front code : jsstring) (store : gmap Z jsstring)
    (Hcode : Forall in_alphabet code) (Hsafe : code_value code < 2 ^ 53) :
  decodeUrl code store = Normal (getOriginalUrl (code_value code) store)
  /\ decodeUrl (front ++ slash :: code) store
     = Normal (getOriginalUrl (code_value code) store).
Proof.
  pose proof (alphabet_without_slash code Hcode) as Hslash.
  unfold decodeUrl.
  rewrite !extractShortCode_last, last_split_after.
  rewrite (split_without slash code Hslash). simpl last. cbv beta iota.
  rewrite (decodeShortUrl_alphabet code Hcode). split; reflexivity.
Qed.

Lemma decodeUrl_last_segment_witness :
  decodeUrl (lit "DNH") {[ 12345 := example_url ]}
  = Normal (getOriginalUrl (code_value (lit "DNH")) {[ 12345 := example_url ]})
  /\ decodeUrl (lit "http://any.host/x" ++ slash :: lit "DNH")
       {[ 12345 := example_url ]}
     = Normal (getOriginalUrl (code_value (lit "DNH")) {[ 12345 := example_url ]}).
Proof.
  apply (decodeUrl_last_segment (lit "http://any.host/x") (lit "DNH")
           {[ 12345 := example_url ]}).
  - repeat constructor.
  - vm_compute. reflexivity.
Defined.

(** Decoding a created short URL looks its identifier up, in any store. *)
Lemma decodeUrl_short_url (longUrl d : jsstring)
    (options : option CreateOverrides) (store store' : gmap Z jsstring)
    (sep : jsstring) :
  separator_of options = sep ++ [slash] ->
  decodeUrl (createShortUrl longUrl d options store).1 store'
  = Normal (getOriginalUrl (identifier (merge_create_options d options) longUrl)
              store').
Proof.
  intros Hsep.
  destruct (createShortUrl_ends longUrl d options store) as [front Hurl].
  rewrite Hurl, Hsep.
  replace (front ++ (sep ++ [slash])
           ++ encodeId (identifier (merge_create_options d options) longUrl))
    with ((front ++ sep) ++ slash
          :: encodeId (identifier (merge_create_options d options) longUrl))
    by (now rewrite <- !app_assoc).
  pose proof (encodeId_alphabet (identifier (merge_create_options d options) longUrl))
    as Hall.
  unfold decodeUrl.
  rewrite extractShortCode_last, last_split_after.
  rewrite (split_without slash _ (alphabet_without_slash _ Hall)).
  simpl last. cbv beta iota.
  rewrite decode_encode by apply Z.abs_nonneg. reflexivity.
Qed.

Lemma createShortUrl_stores (longUrl d : jsstring)
    (options : option CreateOverrides) (store : gmap Z jsstring) :
  (createShortUrl longUrl d options store).2
  = <[identifier (merge_create_options d options) longUrl := longUrl]> store.
Proof. reflexivity. Qed.

(** X11. A short URL made by [createShortUrl] with a path separator that
    ends with ["/"] (the default one does) decodes back to the long URL,
    for every domain, protocol and redirect segment, when the hash is
    computed without rounding: a built-in algorithm on at most [2^20]
    code units, or a custom function returning an integer below [2^53]
    in magnitude. *)
Theorem decodeUrl_createShortUrl (longUrl d : jsstring)
    (options : option CreateOverrides) (store : gmap Z jsstring)
    (sep : jsstring) (Hsep : separator_of options = sep ++ [slash])
    (Hexact : exact_hash (merge_create_options d options) longUrl) :
  decodeUrl (createShortUrl longUrl d options store).1
            (createShortUrl longUrl d options store).2
  = Normal (Some longUrl).
Proof.
  rewrite (decodeUrl_short_url longUrl d options store _ sep Hsep).
  rewrite createShortUrl_stores. unfold getOriginalUrl.
  now rewrite lookup_insert_eq.
Qed.

Lemma decodeUrl_createShortUrl_witness :
  decodeUrl (createShortUrl example_url (lit "test.domain") None ∅).1
            (createShortUrl example_url (lit "test.domain") None ∅).2
  = Normal (Some example_url).
Proof.
  apply (decodeUrl_createShortUrl example_url (lit "test.domain") None ∅ []).
  - reflexivity.
  - short_input.
Defined.

(** X12. A short URL made with a path separator that holds no ["/"] and
    some character outside the alphabet (["-"] for one) does not decode:
    [decodeUrl] returns [undefined] although the mapping is stored. *)
Theorem decodeUrl_foreign_separator (longUrl d : jsstring)
    (options : option CreateOverrides) (store : gmap Z jsstring)
    (Hslash : slash ∉ separator_of options)
    (Hbad : Exists (fun c => ~ in_alphabet c) (separator_of options)) :
  decodeUrl (createShortUrl longUrl d options store).1
            (createShortUrl longUrl d options store).2
  = Normal None
  /\ getOriginalUrl (identifier (merge_create_options d options) longUrl)
       (createShortUrl longUrl d options store).2
     = Some longUrl.
Proof.
  split.
  - destruct (createShortUrl_ends longUrl d options store) as [front Hurl].
    rewrite Hurl.
    pose proof (encodeId_alphabet
                  (identifier (merge_create_options d options) longUrl)) as Hall.
    assert (Hback : slash ∉ separator_of options
                    ++ encodeId (identifier (merge_create_options d options) longUrl)).
    { rewrite not_elem_of_app. split; [exact Hslash |].
      now apply alphabet_without_slash. }
    destruct (last_split_app slash front _ Hback) as [tail Hlast].
    unfold decodeUrl. rewrite extractShortCode_last, Hlast. cbv beta iota.
    assert (Hex : Exists (fun c => ~ in_alphabet c)
                    (tail ++ separator_of options
                     ++ encodeId (identifier (merge_create_options d options) longUrl))).
    { apply Exists_app. right. apply Exists_app. now left. }
    destruct (decode_loop_invalid _ Hex 0) as (? & ? & ? & _ & _ & _ & Hthrow).
    unfold decodeShortUrl. rewrite Hthrow. reflexivity.
  - unfold createShortUrl, storeUrlMapping, getOriginalUrl, identifier. simpl.
    apply lookup_insert_eq.
Qed.

Lemma decodeUrl_foreign_separator_witness :
  decodeUrl
    (createShortUrl example_url (lit "short.url") (Some dash_separator) ∅).1
    (createShortUrl example_url (lit "short.url") (Some dash_separator) ∅).2
  = Normal None
  /\ getOriginalUrl
       (identifier (merge_create_options (lit "short.url") (Some dash_separator))
          example_url)
       (createShortUrl example_url (lit "short.url") (Some dash_separator) ∅).2
     = Some example_url.
Proof.
  apply (decodeUrl_foreign_separator example_url (lit "short.url")
           (Some dash_separator) ∅).
  - apply (bool_decide_unpack (slash ∉ lit "-")). vm_compute. exact I.
  - apply Exists_cons_hd.
    apply (bool_decide_unpack (45 ∉ CHARACTERS)). vm_compute. exact I.
Defined.

(** X13. [createShortUrl] does not detect collisions: when two long URLs,
    both hashed without rounding, have the same identifier, they get the
    same short URL, the second call replaces the stored mapping, and (with
    a separator ending in ["/"]) the short URL of the first now decodes to
    the second. *)
Theorem createShortUrl_collision (url1 url2 d : jsstring)
    (options : option CreateOverrides) (store : gmap Z jsstring) (sep : jsstring)
    (Hsep : separator_of options = sep ++ [slash])
    (Hexact1 : exact_hash (merge_create_options d options) url1)
    (Hexact2 : exact_hash (merge_create_options d options) url2)
    (Hcol : identifier (merge_create_options d options) url1
            = identifier (merge_create_options d options) url2) :
  (createShortUrl url1 d options store).1
  = (createShortUrl url2 d options (createShortUrl url1 d options store).2).1
  /\ (createShortUrl url2 d options (createShortUrl url1 d options store).2).2
     = <[identifier (merge_create_options d options) url2 := url2]> store
  /\ decodeUrl (createShortUrl url1 d options store).1
       (createShortUrl url2 d options (createShortUrl url1 d options store).2).2
     = Normal (Some url2).
Proof.
  assert (Hurl : (createShortUrl url1 d options store).1
                 = (createShortUrl url2 d options
                      (createShortUrl url1 d options store).2).1).
  { unfold createShortUrl. simpl. unfold identifier in Hcol. now rewrite Hcol. }
  split; [exact Hurl |]. split.
  - unfold createShortUrl, storeUrlMapping. simpl.
    unfold identifier in *. rewrite Hcol. apply insert_insert_eq.
  - rewrite Hurl, (decodeUrl_short_url url2 d options _ _ sep Hsep).
    rewrite createShortUrl_stores. unfold getOriginalUrl.
    now rewrite lookup_insert_eq.
Qed.

Lemma createShortUrl_collision_witness :
  (createShortUrl (lit "Ab") (lit "short.url") None ∅).1
  = (createShortUrl (lit "BA") (lit "short.url") None
       (createShortUrl (lit "Ab") (lit "short.url") None ∅).2).1
  /\ (createShortUrl (lit "BA") (lit "short.url") None
        (createShortUrl (lit "Ab") (lit "short.url") None ∅).2).2
     = <[identifier (merge_create_options (lit "short.url") None) (lit "BA")
         := lit "BA"]> ∅
  /\ decodeUrl (createShortUrl (lit "Ab") (lit "short.url") None ∅).1
       (createShortUrl (lit "BA") (lit "short.url") None
          (createShortUrl (lit "Ab") (lit "short.url") None ∅).2).2
     = Normal (Some (lit "BA")).
Proof.
  apply (createShortUrl_collision (lit "Ab") (lit "BA") (lit "short.url")
           None ∅ []).
  - reflexivity.
  - short_input.
  - short_input.
  - vm_compute. reflexivity.
Defined.



End EndToEnd.

(** ** The repository's test suite and README, replayed on the model *)

Section Tests.

Example test_encode_zero : encodeId 0 = lit "A".
Proof. reflexivity. Qed.

Example test_decode_encoded : decodeShortUrl (encodeId 12345) = Normal 12345.
Proof. vm_compute. reflexivity. Qed.

Example test_invalid_characters :
  decodeShortUrl (lit "ABC$123") = Throw (invalid_character 36).
Proof. reflexivity. Qed.

Example test_build_default_domain :
  buildShortUrl 12345 (OptionsObject (with_domain DEFAULT_SHORT_URL_OPTIONS
                                        (lit "short.url")))
  = lit "short.url/r/DNH".
Proof. vm_compute. reflexivity. Qed.

Example test_custom_separator :
  (createShortUrl (lit "https://example.com/path") (lit "short.url")
     (Some {| with_includeRedirectPath := Absent;
              with_redirectPathSegment := Absent;
              with_includeProtocol := Absent;
              with_protocol := Absent;
              with_pathSeparator := Present (Some (lit "-"));
              with_hashAlgorithm := None;
              with_customHashFn := None |}) ∅).1
  = lit "short.url-r-CE31jF".
Proof. vm_compute. reflexivity. Qed.

Example test_undefined_separator :
  buildShortUrl 1 (OptionsObject
    {| domain := lit "x"; includeRedirectPath := Absent;
       redirectPathSegment := Absent; includeProtocol := Absent;
       protocol := Absent; pathSeparator := Present None |})
  = lit "xundefinedrundefinedB".
Proof. vm_compute. reflexivity. Qed.

Example test_decode_created :
  decodeUrl
    (createShortUrl example_url (lit "test.domain") None ∅).1
    (createShortUrl example_url (lit "test.domain") None ∅).2
  = Normal (Some example_url).
Proof. vm_compute. reflexivity. Qed.

Example test_unknown_short_url :
  decodeUrl (lit "short.url/r/ABC123") ∅ = Normal None.
Proof. vm_compute. reflexivity. Qed.

End Tests.
